(** * The generic resource provider of go-init-utils (package giu)

    A shallow embedding of [GiuProvider[T]], of the construction helpers
    that fill it from a keyed parameter map, and of the typed providers
    (gorm, zap, redis) that add a [Shutdown] of their own.

    Conventions of the embedding:
    - a Go [map[string]T] is a [gmap string T];
    - a method with a pointer receiver that mutates the receiver takes the
      provider and returns the updated one;
    - a variadic parameter is a list;
    - a Go [error] is an [option E] ([None] is [nil]);
    - a result [pointer, error] is a pair of options ([None] is the nil
      pointer);
    - the [sync.RWMutex] is not part of the state: every function below is
      one critical section, run sequentially. *)

From stdpp Require Import gmap strings list fin_maps pretty.

(** Every Go type has a zero value: what [var x T] holds. *)
Class GoZero (T : Type) := zero : T.

#[export] Instance nat_GoZero : GoZero nat := 0.
#[export] Instance string_GoZero : GoZero string := "".

(** ** The registry *)

Record GiuProvider (T : Type) := mkGiuProvider {
  d : T;
  container : gmap string T
}.
Arguments mkGiuProvider {T} _ _.
Arguments d {T} _.
Arguments container {T} _.

Section Registry.
Context {T : Type} `{!GoZero T}.

(** [len(isDefault) > 0 && isDefault[0]] *)
Definition isDefault_set (isDefault : list bool) : bool :=
  bool_decide (0 < length isDefault) && (isDefault !!! 0%nat).

(** [func (p *GiuProvider[T]) Add(name string, d T, isDefault ...bool)] *)
Definition Add (name : string) (val : T) (isDefault : list bool)
    (p : GiuProvider T) : GiuProvider T :=
  let p1 := if isDefault_set isDefault
            then mkGiuProvider val (container p) else p in
  let p2 := if bool_decide (size (container p1) = 0)
            then mkGiuProvider val (container p1) else p1 in
  mkGiuProvider (d p2) (<[name := val]> (container p2)).

(** [func (p *GiuProvider[T]) Get(name string) (T, bool)]: the two-value
    map read gives the zero value when the key is missing. *)
Definition Get (name : string) (p : GiuProvider T) : T * bool :=
  match container p !! name with
  | Some v => (v, true)
  | None => (zero, false)
  end.

(** [func (p *GiuProvider[T]) Default() T] *)
Definition Default (p : GiuProvider T) : T := d p.

(** [func (p *GiuProvider[T]) SetDefault(name string) bool] *)
Definition SetDefault (name : string) (p : GiuProvider T)
    : GiuProvider T * bool :=
  match container p !! name with
  | Some _ =>
      (mkGiuProvider (default zero (container p !! name)) (container p), true)
  | None => (p, false)
  end.

(** [func (p *GiuProvider[T]) Shutdown() error] *)
Definition Shutdown {E : Type} (p : GiuProvider T) : option E := None.

(** [&GiuProvider[T]{lock: sync.RWMutex{}, container: make(map[string]T)}] *)
Definition newEmpty : GiuProvider T := mkGiuProvider zero ∅.
End Registry.

(** ** Construction

    Go leaves the order in which [for k, v := range m] visits a map
    unspecified.  The constructors are therefore written over an arbitrary
    [range], of which the theorems only assume that it lists the entries of
    the map, each once. *)

Section Construction.
Variable range : ∀ A : Type, gmap string A → list (string * A).
Arguments range {A} _.

Context {T : Type} `{!GoZero T}.

(** [func NewGiuProvider[T any](items ...map[string]T) *GiuProvider[T]] *)
Definition NewGiuProvider (items : list (gmap string T)) : GiuProvider T :=
  let g := newEmpty in
  if bool_decide (0 < length items)
  then foldl (λ g '(k, v), Add k v [] g) g (range (items !!! 0%nat))
  else g.

(** [func NewProvider[T any](items ...map[string]T) Provider[T]] *)
Definition NewProvider (items : list (gmap string T)) : GiuProvider T :=
  NewGiuProvider items.

Context {U : Type}.

(** [func NewGiuProviderFromParams[T any, U any](newFunc func(U) T,
    params map[string]U) *GiuProvider[T]] *)
Definition NewGiuProviderFromParams (newFunc : U → T)
    (params : gmap string U) : GiuProvider T :=
  let itemMap :=
    foldl (λ itemMap '(k, v), <[k := newFunc v]> itemMap) ∅ (range params) in
  NewGiuProvider [itemMap].

Context {Logger : Type}.

(** [func NewGiuProviderWithLoggerFromParams] *)
Definition NewGiuProviderWithLoggerFromParams (newFunc : U → Logger → T)
    (params : gmap string U) (logger : Logger) : GiuProvider T :=
  let itemMap :=
    foldl (λ itemMap '(k, v), <[k := newFunc v logger]> itemMap) ∅
          (range params) in
  NewGiuProvider [itemMap].

Context {E : Type}.

(** The loop of the two fallible constructors: [inr err] is the early
    [return nil, err], [inl itemMap] is falling out of the loop. *)
Fixpoint fill_itemMap (newFunc : U → T * option E)
    (kvs : list (string * U)) (itemMap : gmap string T)
    : gmap string T + E :=
  match kvs with
  | [] => inl itemMap
  | (k, v) :: kvs' =>
      let '(item, err) := newFunc v in
      match err with
      | Some e => inr e
      | None => fill_itemMap newFunc kvs' (<[k := item]> itemMap)
      end
  end.

(** [func NewGiuProviderFromParamsError[T any, U any](newFunc func(U) (T, error),
    params map[string]U)], returning the provider and an error *)
Definition NewGiuProviderFromParamsError (newFunc : U → T * option E)
    (params : gmap string U) : option (GiuProvider T) * option E :=
  match fill_itemMap newFunc (range params) ∅ with
  | inr e => (None, Some e)
  | inl itemMap => (Some (NewGiuProvider [itemMap]), None)
  end.

(** [func NewGiuProviderWithLoggerFromParamsError]: as above, every call
    of the factory gets the one [logger]. *)
Definition NewGiuProviderWithLoggerFromParamsError
    (newFunc : U → Logger → T * option E)
    (params : gmap string U) (logger : Logger)
    : option (GiuProvider T) * option E :=
  match fill_itemMap (λ v, newFunc v logger) (range params) ∅ with
  | inr e => (None, Some e)
  | inl itemMap => (Some (NewGiuProvider [itemMap]), None)
  end.

(** What it takes for the error of a failed construction to tell which
    name failed: a reading [name_of] of the error that yields a key of
    the mapping whose factory call returned this error. *)
Definition error_names_key (name_of : E → string)
    (newFunc : U → T * option E) (params : gmap string U) : Prop :=
  ∀ r e, NewGiuProviderFromParamsError newFunc params = (r, Some e) →
    ∃ u, params !! name_of e = Some u ∧ (newFunc u).2 = Some e.
End Construction.

(** ** Opening a gorm connection *)

Record GormConnectionParams := mkGormConnectionParams {
  Driver : string;
  Host : string;
  Port : N;
  User : string;
  Password : string;
  Database : string
}.

Definition GORM_DRIVER_MYSQL : string := "mysql".
Definition GORM_DRIVER_PG : string := "postgres".
Definition GORM_DRIVER_PG_SHORTEN : string := "pg".
Definition GORM_DRIVER_SQLITE : string := "sqlite".
Definition GORM_DRIVER_SQLSERVER : string := "sqlserver".

(** A [gorm.Dialector] is known by the driver package that opened it and
    by its data source name. *)
Inductive Dialector :=
  | mysql_Open (dsn : string)
  | postgres_Open (dsn : string).

Definition NewGormMysql (params : GormConnectionParams) : Dialector :=
  mysql_Open (User params +:+ ":" +:+ Password params +:+ "@tcp(" +:+ Host params
              +:+ ":" +:+ pretty (Port params) +:+ ")/" +:+ Database params
              +:+ "?charset=utf8mb4&parseTime=True&loc=Local").

Definition NewGormPostgres (params : GormConnectionParams) : Dialector :=
  postgres_Open ("host=" +:+ Host params +:+ " user=" +:+ User params
                 +:+ " password=" +:+ Password params +:+ " dbname="
                 +:+ Database params +:+ " port=" +:+ pretty (Port params)
                 +:+ " sslmode=disable").

Definition NewGormSQLServer (params : GormConnectionParams) : Dialector :=
  mysql_Open ("sqlserver://" +:+ User params +:+ ":" +:+ Password params +:+ "@"
              +:+ Host params +:+ ":" +:+ pretty (Port params) +:+ "?database="
              +:+ Database params).

Definition NewGormSQLite (params : GormConnectionParams) : Dialector :=
  mysql_Open (Database params +:+ ".db").

Section Gorm.
Context {GormDB : Type} `{!GoZero GormDB} {E : Type}.
(** [gorm.Open] and the error that [fmt.Errorf] builds from a message
    belong to the libraries. *)
Variable gorm_Open : Dialector → GormDB * option E.
Variable fmt_Errorf : string → E.
Variable GormConfigParams : Type.

(** [func NewGorm(params GormConnectionParams, configParams ...*GormConfigParams)]:
    the [config] the function assembles from [configParams] is not handed
    to [gorm.Open], so the result depends on [params] alone. *)
Definition NewGorm (params : GormConnectionParams)
    (configParams : list (option GormConfigParams)) : GormDB * option E :=
  if decide (Driver params = GORM_DRIVER_MYSQL)
  then gorm_Open (NewGormMysql params)
  else if decide (Driver params = GORM_DRIVER_PG
                  ∨ Driver params = GORM_DRIVER_PG_SHORTEN)
  then gorm_Open (NewGormPostgres params)
  else if decide (Driver params = GORM_DRIVER_SQLITE)
  then gorm_Open (NewGormSQLite params)
  else if decide (Driver params = GORM_DRIVER_SQLSERVER)
  then gorm_Open (NewGormSQLServer params)
  else (zero, Some (fmt_Errorf ("unsupported gorm driver: " +:+ Driver params))).
End Gorm.

(** ** The typed providers

    Each embeds a [GiuProvider] and has a [Shutdown] of its own.  A
    [Shutdown] returns, next to its error, the instances on which it
    invoked the close operation, in the order of the calls.  Whether
    closing an instance fails is taken to be a function of the instance. *)

Record gormProvider (GormDB : Type) := mk_gormProvider {
  gorm_GiuProvider : GiuProvider GormDB
}.
Arguments mk_gormProvider {GormDB} _.
Arguments gorm_GiuProvider {GormDB} _.

Record zapProvider (ZapLogger : Type) := mk_zapProvider {
  zap_GiuProvider : GiuProvider ZapLogger
}.
Arguments mk_zapProvider {ZapLogger} _.
Arguments zap_GiuProvider {ZapLogger} _.

Record redisProvider (RedisClient : Type) := mk_redisProvider {
  redis_GiuProvider : GiuProvider RedisClient
}.
Arguments mk_redisProvider {RedisClient} _.
Arguments redis_GiuProvider {RedisClient} _.

Section Providers.
Variable range : ∀ A : Type, gmap string A → list (string * A).
Arguments range {A} _.

Context {E : Type}.

Section GormProvider.
Context {GormDB SqlDB : Type} `{!GoZero GormDB}.
(** The methods [DB] of a gorm handle and [Close] of the sql handle. *)
Variable DB : GormDB → SqlDB * option E.
Variable sql_Close : SqlDB → option E.

Fixpoint gormProvider_Shutdown_loop (kvs : list (string * GormDB))
    : list GormDB * option E :=
  match kvs with
  | [] => ([], None)
  | (_, v) :: kvs' =>
      let '(db, err) := DB v in
      match err with
      | None =>
          match sql_Close db with
          | Some e => ([v], Some e)
          | None =>
              let '(closed, r) := gormProvider_Shutdown_loop kvs' in
              (v :: closed, r)
          end
      | Some _ => gormProvider_Shutdown_loop kvs'
      end
  end.

(** [func (gp *gormProvider) Shutdown() error] *)
Definition gormProvider_Shutdown (gp : gormProvider GormDB)
    : list GormDB * option E :=
  gormProvider_Shutdown_loop (range (container (gorm_GiuProvider gp))).

(** [func newGormProvider(connections ...map[string]*gorm.DB) *gormProvider] *)
Definition newGormProvider (connections : list (gmap string GormDB))
    : gormProvider GormDB :=
  mk_gormProvider (NewGiuProvider (@range) connections).

(** [func NewGormProvider(connections ...map[string]*gorm.DB) GormProvider] *)
Definition NewGormProvider (connections : list (gmap string GormDB))
    : gormProvider GormDB :=
  newGormProvider connections.

Variable gorm_Open : Dialector → GormDB * option E.
Variable fmt_Errorf : string → E.
Variable GormConfigParams : Type.

(** [func NewGormProviderFromParams(configParams *GormConfigParams,
    connectionParams map[string]*GormConnectionParams) (GormProvider, error)];
    the values of [connectionParams] are taken non-nil (the code
    dereferences them). *)
Definition NewGormProviderFromParams
    (configParams : option GormConfigParams)
    (connectionParams : gmap string GormConnectionParams)
    : option (gormProvider GormDB) * option E :=
  match fill_itemMap (λ v, NewGorm gorm_Open fmt_Errorf GormConfigParams
                                   v [configParams])
                     (range connectionParams) ∅ with
  | inr e => (None, Some e)
  | inl connections => (Some (NewGormProvider [connections]), None)
  end.
End GormProvider.

Section ZapProvider.
Context {ZapLogger : Type} `{!GoZero ZapLogger}.
(** The method [Sync] of a zap logger. *)
Variable Sync : ZapLogger → option E.

Fixpoint zapProvider_Shutdown_loop (kvs : list (string * ZapLogger))
    : list ZapLogger * option E :=
  match kvs with
  | [] => ([], None)
  | (_, v) :: kvs' =>
      match Sync v with
      | Some e => ([v], Some e)
      | None =>
          let '(closed, r) := zapProvider_Shutdown_loop kvs' in
          (v :: closed, r)
      end
  end.

(** [func (zp *zapProvider) Shutdown() error] *)
Definition zapProvider_Shutdown (zp : zapProvider ZapLogger)
    : list ZapLogger * option E :=
  zapProvider_Shutdown_loop (range (container (zap_GiuProvider zp))).

(** [func NewZapProvider(loggers ...map[string]*zap.Logger) ZapProvider] *)
Definition NewZapProvider (loggers : list (gmap string ZapLogger))
    : zapProvider ZapLogger :=
  mk_zapProvider (NewGiuProvider (@range) loggers).
End ZapProvider.

Section RedisProvider.
Context {RedisClient : Type} `{!GoZero RedisClient}.
(** The method [Close] of a redis client. *)
Variable Close : RedisClient → option E.

Fixpoint redisProvider_Shutdown_loop (kvs : list (string * RedisClient))
    : list RedisClient * option E :=
  match kvs with
  | [] => ([], None)
  | (_, v) :: kvs' =>
      match Close v with
      | Some e => ([v], Some e)
      | None =>
          let '(closed, r) := redisProvider_Shutdown_loop kvs' in
          (v :: closed, r)
      end
  end.

(** [func (rp *redisProvider) Shutdown() error] *)
Definition redisProvider_Shutdown (rp : redisProvider RedisClient)
    : list RedisClient * option E :=
  redisProvider_Shutdown_loop (range (container (redis_GiuProvider rp))).

(** [func NewRedisProvider(clients ...map[string]redis.UniversalClient)] *)
Definition NewRedisProvider (clients : list (gmap string RedisClient))
    : redisProvider RedisClient :=
  mk_redisProvider (NewGiuProvider (@range) clients).
End RedisProvider.
End Providers.

(** One admissible visiting order: the one of [map_to_list]. *)
Definition range_map_to_list : ∀ A : Type, gmap string A → list (string * A) :=
  λ A, map_to_list.

(** ** Fail-fast teardown, as the specification describes it

    [close_in_order] closes the instances in the order given and stops at
    the first failure; [fail_fast] says what this means for a result: the
    error is the first failure and the instances after it were not
    touched, or there is no failure and every instance was closed once. *)

Fixpoint close_in_order {A E : Type} (close : A → option E) (vs : list A)
    : list A * option E :=
  match vs with
  | [] => ([], None)
  | v :: vs' =>
      match close v with
      | Some e => ([v], Some e)
      | None =>
          let '(closed, r) := close_in_order close vs' in (v :: closed, r)
      end
  end.

Definition fail_fast {A E : Type} (close : A → option E) (vs : list A)
    (result : list A * option E) : Prop :=
  (∀ pre v post e,
     vs = pre ++ v :: post → Forall (λ x, close x = None) pre →
     close v = Some e → result = (pre ++ [v], Some e)) ∧
  (Forall (λ x, close x = None) vs → result = (vs, None)).

(** ** Sequences of calls on one registry *)

Inductive call (T : Type) :=
  | CallAdd (name : string) (val : T) (isDefault : list bool)
  | CallSetDefault (name : string).
Arguments CallAdd {T} _ _ _.
Arguments CallSetDefault {T} _.

Section Calls.
Context {T : Type} `{!GoZero T}.

Definition do_call (p : GiuProvider T) (c : call T) : GiuProvider T :=
  match c with
  | CallAdd name val isDefault => Add name val isDefault p
  | CallSetDefault name => (SetDefault name p).1
  end.

Definition run (calls : list (call T)) (p : GiuProvider T) : GiuProvider T :=
  foldl do_call p calls.

(** Invariant I1 of the registry, as the specification words it: the
    default is one of the stored values as soon as there is one. *)
Definition I1 (p : GiuProvider T) : Prop :=
  container p ≠ ∅ → ∃ name, container p !! name = Some (Default p).

(** The call replaces, without asking for the default, the value of a
    name that currently holds the default. *)
Definition overwrites_default (p : GiuProvider T) (c : call T) : Prop :=
  match c with
  | CallAdd name _ isDefault =>
      isDefault_set isDefault = false ∧ container p !! name = Some (d p)
  | CallSetDefault _ => False
  end.

Fixpoint keeps_default (p : GiuProvider T) (calls : list (call T)) : Prop :=
  match calls with
  | [] => True
  | c :: calls' =>
      ¬ overwrites_default p c ∧ keeps_default (do_call p c) calls'
  end.

(** A run of plain [Add(name, val)] calls. *)
Definition adds (kvs : list (string * T)) : list (call T) :=
  (λ '(k, v), CallAdd k v []) <$> kvs.

(** An [Add] that does not ask for the default. *)
Definition plain_add (c : call T) : Prop :=
  match c with
  | CallAdd _ _ isDefault => isDefault_set isDefault = false
  | CallSetDefault _ => False
  end.
End Calls.

(** * Properties of the registry *)

Section RegistryFacts.
Context {T : Type} `{!GoZero T}.
Implicit Types (p : GiuProvider T) (name : string) (val : T).

Lemma isDefault_set_nil : isDefault_set [] = false.
Proof. reflexivity. Qed.

Lemma isDefault_set_cons b bs : isDefault_set (b :: bs) = b.
Proof. unfold isDefault_set. by rewrite bool_decide_true by (simpl; lia). Qed.

Lemma Add_container name val isDefault p :
  container (Add name val isDefault p) = <[name := val]> (container p).
Proof.
  unfold Add. destruct (isDefault_set isDefault); simpl;
    case_bool_decide; done.
Qed.

Lemma Add_d name val isDefault p :
  d (Add name val isDefault p) =
    if isDefault_set isDefault || bool_decide (container p = ∅)
    then val else d p.
Proof.
  unfold Add. destruct (isDefault_set isDefault); simpl.
  - by case_bool_decide.
  - case_bool_decide as Hsz; case_bool_decide as Hem; simpl; try done.
    + by apply map_size_empty_iff in Hsz.
    + destruct Hsz. by apply map_size_empty_iff.
Qed.

Lemma Add_nonempty name val isDefault p :
  container (Add name val isDefault p) ≠ ∅.
Proof. rewrite Add_container. apply insert_non_empty. Qed.

Lemma SetDefault_container name p :
  container (SetDefault name p).1 = container p.
Proof. unfold SetDefault. by destruct (container p !! name). Qed.

(** C2, as amended. After [Add(name, val, isDefault...)] the default is
    [val] when the flag was passed as true or the container was empty
    before the call, and it is the old default in every other case; so
    [Default()] returns [val] afterwards exactly when the flag was true,
    the container was empty, or the default already was [val]. *)
Theorem Add_default_rule name val isDefault p :
  (isDefault_set isDefault = true ∨ container p = ∅ →
     Default (Add name val isDefault p) = val) ∧
  (¬ (isDefault_set isDefault = true ∨ container p = ∅) →
     Default (Add name val isDefault p) = Default p) ∧
  (Default (Add name val isDefault p) = val ↔
     isDefault_set isDefault = true ∨ container p = ∅ ∨ Default p = val).
Proof.
  unfold Default. rewrite Add_d.
  destruct (isDefault_set isDefault); simpl.
  - intuition congruence.
  - case_bool_decide; intuition congruence.
Qed.

(** C3. [SetDefault(name)] returns true, with the default now the value
    stored under [name], exactly when [name] is in the container; for a
    missing name it returns false and the registry is the one it was.
    The container is never touched. *)
Theorem SetDefault_contract name p :
  ((SetDefault name p).2 = true ∧
   container (SetDefault name p).1 !! name
     = Some (Default (SetDefault name p).1)
   ↔ is_Some (container p !! name)) ∧
  (∀ v, container p !! name = Some v →
     SetDefault name p = (mkGiuProvider v (container p), true)) ∧
  (container p !! name = None → SetDefault name p = (p, false)).
Proof.
  unfold SetDefault, Default.
  destruct (container p !! name) as [v|] eqn:Hl; simpl.
  - rewrite Hl. repeat split; eauto; [by intros v' [= ->] | done].
  - repeat split; try done; by intros [? ?].
Qed.

(** C8. [Add(name, v1)] followed by [Add(name, v2)] without a true flag:
    [Get(name)] gives [(v2, true)], and the default is the one the first
    call left, so still [v1] when that was the default. *)
Theorem Add_overwrite name v1 v2 flags1 flags2 p :
  isDefault_set flags2 = false →
  let p1 := Add name v1 flags1 p in
  let p2 := Add name v2 flags2 p1 in
  Get name p2 = (v2, true) ∧
  Default p2 = Default p1 ∧
  (Default p1 = v1 → Default p2 = v1).
Proof.
  intros Hf p1 p2.
  assert (Hd : Default p2 = Default p1).
  { unfold Default, p2. rewrite Add_d, Hf. simpl.
    rewrite bool_decide_false; [done|]. apply Add_nonempty. }
  split; [|split; [done|congruence]].
  unfold Get, p2. by rewrite Add_container, lookup_insert_eq.
Qed.

Lemma newEmpty_I1 : I1 (newEmpty : GiuProvider T).
Proof. intros Hne. by destruct Hne. Qed.

Lemma Add_I1 name val isDefault p :
  I1 p → ¬ overwrites_default p (CallAdd name val isDefault) →
  I1 (Add name val isDefault p).
Proof.
  intros HI Hno _. unfold Default. rewrite Add_d, Add_container.
  destruct (isDefault_set isDefault) eqn:Hf; simpl.
  { exists name. apply lookup_insert_eq. }
  case_bool_decide as Hem.
  { exists name. apply lookup_insert_eq. }
  destruct (HI Hem) as [k Hk]. exists k.
  rewrite lookup_insert_ne; [done|].
  intros ->. apply Hno. by split.
Qed.

Lemma SetDefault_I1 name p : I1 p → I1 (SetDefault name p).1.
Proof.
  intros HI. unfold SetDefault.
  destruct (container p !! name) as [v|] eqn:Hl; simpl; [|done].
  intros _. by exists name.
Qed.

Lemma do_call_I1 p c : I1 p → ¬ overwrites_default p c → I1 (do_call p c).
Proof.
  destruct c as [name val isDefault|name]; simpl.
  - apply Add_I1.
  - intros HI _. by apply SetDefault_I1.
Qed.

(** C1, as amended. I1 holds in the empty registry and is kept by every
    sequence of [Add] and [SetDefault] calls in which no [Add] without a
    true flag replaces the value of a name that holds the current
    default. *)
Theorem I1_kept calls p :
  I1 p → keeps_default p calls → I1 (run calls p).
Proof.
  revert p. induction calls as [|c calls IH]; intros p HI Hk; [done|].
  destruct Hk as [Hno Hk]. apply (IH _ (do_call_I1 _ _ HI Hno) Hk).
Qed.
End RegistryFacts.

(** * Properties of the constructors *)

Section RangeLoops.
(** What the loops over a visiting order compute, whatever the order. *)
Context {T : Type} `{!GoZero T}.

Lemma foldl_insert_list_to_map {U : Type} (f : U → T)
    (kvs : list (string * U)) (m0 : gmap string T) :
  NoDup kvs.*1 →
  foldl (λ im '(k, v), <[k := f v]> im) m0 kvs
    = (f <$> list_to_map kvs) ∪ m0.
Proof.
  revert m0. induction kvs as [|[k v] kvs IH]; intros m0 Hnd.
  - simpl. by rewrite fmap_empty, (left_id_L ∅ (∪)).
  - rewrite fmap_cons in Hnd. apply NoDup_cons in Hnd as [Hk Hnd].
    cbn [foldl list_to_map foldr]. rewrite IH by done.
    rewrite fmap_insert, <-insert_union_l.
    symmetry. apply insert_union_r. rewrite lookup_fmap.
    by rewrite (not_elem_of_list_to_map_1 _ _ Hk).
Qed.

Lemma foldl_Add_container (kvs : list (string * T)) (g : GiuProvider T) :
  container (foldl (λ g '(k, v), Add k v [] g) g kvs)
    = foldl (λ im '(k, v), <[k := v]> im) (container g) kvs.
Proof.
  revert g. induction kvs as [|[k v] kvs IH]; intros g; simpl; [done|].
  by rewrite IH, Add_container.
Qed.

Lemma foldl_Add_d_nonempty (kvs : list (string * T)) (g : GiuProvider T) :
  container g ≠ ∅ →
  d (foldl (λ g '(k, v), Add k v [] g) g kvs) = d g.
Proof.
  revert g. induction kvs as [|[k v] kvs IH]; intros g Hne; simpl; [done|].
  rewrite IH by apply Add_nonempty.
  rewrite Add_d, isDefault_set_nil. simpl. by rewrite bool_decide_false.
Qed.

Lemma foldl_Add_d_first k v (kvs : list (string * T)) (g : GiuProvider T) :
  container g = ∅ →
  d (foldl (λ g '(k, v), Add k v [] g) g ((k, v) :: kvs)) = v.
Proof.
  intros Hem. simpl. rewrite foldl_Add_d_nonempty by apply Add_nonempty.
  rewrite Add_d, isDefault_set_nil. simpl. by rewrite bool_decide_true.
Qed.

Lemma run_plain_adds_d (calls : list (call T)) (p : GiuProvider T) :
  container p ≠ ∅ → Forall plain_add calls → d (run calls p) = d p.
Proof.
  unfold run. revert p.
  induction calls as [|c calls IH]; intros p Hne Hall; [done|].
  apply Forall_cons in Hall as [Hc Hall]. destruct c as [k v fl|]; [|done].
  simpl in *. rewrite IH; [|apply Add_nonempty|done].
  rewrite Add_d, Hc. simpl. by rewrite bool_decide_false.
Qed.

Lemma fill_itemMap_ok {U E} (newFunc : U → T * option E)
    (kvs : list (string * U)) m0 :
  Forall (λ kv, (newFunc kv.2).2 = None) kvs →
  fill_itemMap newFunc kvs m0
    = inl (foldl (λ im '(k, v), <[k := (newFunc v).1]> im) m0 kvs).
Proof.
  revert m0. induction kvs as [|[k v] kvs IH]; intros m0 Hall; [done|].
  apply Forall_cons in Hall as [Hv Hall]. simpl in *.
  destruct (newFunc v) as [item err]. simpl in *. subst err. by apply IH.
Qed.

Lemma fill_itemMap_inr {U E} (newFunc : U → T * option E)
    (kvs : list (string * U)) m0 e :
  fill_itemMap newFunc kvs m0 = inr e ↔
  ∃ pre k u post, kvs = pre ++ (k, u) :: post ∧
    Forall (λ kv, (newFunc kv.2).2 = None) pre ∧ (newFunc u).2 = Some e.
Proof.
  revert m0. induction kvs as [|[k v] kvs IH]; intros m0; simpl.
  - split; [done|]. intros (pre & ? & ? & ? & Heq & _).
    by destruct pre.
  - destruct (newFunc v) as [item [e'|]] eqn:Hv.
    + split.
      * intros [= ->]. exists [], k, v, kvs. by rewrite Hv.
      * intros (pre & k' & u & post & Heq & Hpre & Hu).
        destruct pre as [|kv pre]; simplify_eq/=.
        -- rewrite Hv in Hu. by simplify_eq/=.
        -- apply Forall_cons in Hpre as [Hkv _]. simpl in Hkv.
           rewrite Hv in Hkv. done.
    + rewrite IH. split.
      * intros (pre & k' & u & post & -> & Hpre & Hu).
        exists ((k, v) :: pre), k', u, post. split; [done|].
        split; [|done]. apply Forall_cons. split; [|done].
        simpl. by rewrite Hv.
      * intros (pre & k' & u & post & Heq & Hpre & Hu).
        destruct pre as [|kv pre]; simplify_eq/=.
        -- rewrite Hv in Hu. done.
        -- apply Forall_cons in Hpre as [_ Hpre]. by eexists _, _, _, _.
Qed.

Lemma fill_itemMap_fails {U E} (newFunc : U → T * option E)
    (kvs : list (string * U)) m0 :
  Exists (λ kv, (newFunc kv.2).2 ≠ None) kvs →
  ∃ e, fill_itemMap newFunc kvs m0 = inr e.
Proof.
  revert m0. induction kvs as [|[k v] kvs IH]; intros m0 Hex.
  - by apply Exists_nil in Hex.
  - simpl. destruct (newFunc v) as [item [e'|]] eqn:Hv; [by eexists|].
    apply IH. apply Exists_cons in Hex as [Hbad|]; [|done].
    simpl in Hbad. by rewrite Hv in Hbad.
Qed.
End RangeLoops.

Section ConstructionFacts.
Variable range : ∀ A : Type, gmap string A → list (string * A).
Arguments range {A} _.
Hypothesis range_perm :
  ∀ (A : Type) (m : gmap string A), range m ≡ₚ map_to_list m.

Context {T : Type} `{!GoZero T}.

Lemma range_NoDup {A} (m : gmap string A) : NoDup (range m).*1.
Proof. rewrite range_perm. apply NoDup_fst_map_to_list. Qed.

Lemma range_list_to_map {A} (m : gmap string A) : list_to_map (range m) = m.
Proof.
  rewrite (list_to_map_proper _ (map_to_list m)).
  - apply list_to_map_to_list.
  - apply range_NoDup.
  - apply range_perm.
Qed.

Lemma range_empty {A} (m : gmap string A) : range m = [] ↔ m = ∅.
Proof.
  rewrite <-map_to_list_empty_iff. split; intros Hnil.
  - apply Permutation_nil_r. by rewrite <-Hnil, range_perm.
  - apply Permutation_nil_r. by rewrite range_perm, Hnil.
Qed.

Lemma elem_of_range {A} (m : gmap string A) k v :
  (k, v) ∈ range m ↔ m !! k = Some v.
Proof. by rewrite range_perm, elem_of_map_to_list. Qed.

Lemma NewGiuProvider_cons (m : gmap string T) rest :
  NewGiuProvider (@range) (m :: rest)
    = foldl (λ g '(k, v), Add k v [] g) newEmpty (range m).
Proof.
  unfold NewGiuProvider. by rewrite bool_decide_true by (simpl; lia).
Qed.

Lemma NewGiuProvider_container (m : gmap string T) rest :
  container (NewGiuProvider (@range) (m :: rest)) = m.
Proof.
  rewrite NewGiuProvider_cons, foldl_Add_container. simpl.
  rewrite (foldl_insert_list_to_map id) by apply range_NoDup.
  by rewrite map_fmap_id, range_list_to_map, (right_id_L ∅ (∪)).
Qed.

Lemma NewGiuProvider_Default (m : gmap string T) rest :
  Default (NewGiuProvider (@range) (m :: rest))
    = default zero (snd <$> head (range m)).
Proof.
  rewrite NewGiuProvider_cons. unfold Default.
  destruct (range m) as [|[k v] kvs]; [done|].
  by rewrite foldl_Add_d_first.
Qed.

(** C4, as amended. Without an explicit designation the default is the
    value of the first insertion, not of the last: a first [Add] into the
    empty registry followed by any [Add] calls without a true flag leaves
    [Default()] at the first value, and a registry seeded from a map has
    as default the entry that the construction visits first. *)
Theorem Default_is_first_insert name val isDefault (calls : list (call T))
    (m : gmap string T) (rest : list (gmap string T)) :
  (Forall plain_add calls →
     Default (run (CallAdd name val isDefault :: calls) newEmpty) = val) ∧
  Default (NewGiuProvider (@range) (m :: rest))
    = default zero (snd <$> head (range m)) ∧
  Default (NewProvider (@range) (m :: rest))
    = default zero (snd <$> head (range m)).
Proof.
  split; [|split].
  - intros Hall. unfold Default.
    change (run (CallAdd name val isDefault :: calls) newEmpty)
      with (run calls (Add name val isDefault newEmpty)).
    rewrite run_plain_adds_d; [|apply Add_nonempty|done].
    rewrite Add_d. simpl. rewrite bool_decide_true by done.
    by rewrite orb_true_r.
  - apply NewGiuProvider_Default.
  - apply NewGiuProvider_Default.
Qed.

(** C9. The variadic constructors read [items[0]] and nothing else: with
    no map the registry is empty; with one or more maps the result is the
    one built from the first map alone, its container is that map, and its
    default is a value of that map (the zero value when the map is empty).
    The typed constructors hand their arguments to [NewGiuProvider]
    unchanged. *)
Theorem variadic_first_map_only (m : gmap string T)
    (rest items : list (gmap string T)) :
  NewGiuProvider (@range) [] = (newEmpty : GiuProvider T) ∧
  NewGiuProvider (@range) (m :: rest) = NewGiuProvider (@range) [m] ∧
  container (NewGiuProvider (@range) (m :: rest)) = m ∧
  ((m = ∅ ∧ Default (NewGiuProvider (@range) (m :: rest)) = zero) ∨
   (∃ k, m !! k = Some (Default (NewGiuProvider (@range) (m :: rest))))) ∧
  NewProvider (@range) items = NewGiuProvider (@range) items ∧
  gorm_GiuProvider (NewGormProvider (@range) items)
    = NewGiuProvider (@range) items ∧
  zap_GiuProvider (NewZapProvider (@range) items)
    = NewGiuProvider (@range) items ∧
  redis_GiuProvider (NewRedisProvider (@range) items)
    = NewGiuProvider (@range) items.
Proof.
  split; [done|]. split; [by rewrite !NewGiuProvider_cons|].
  split; [apply NewGiuProvider_container|]. split; [|done].
  rewrite NewGiuProvider_Default.
  destruct (range m) as [|[k v] kvs] eqn:Hr; simpl.
  - left. split; [|done]. by apply range_empty.
  - right. exists k. apply elem_of_range. rewrite Hr. by left.
Qed.

Context {U E : Type}.
Implicit Types (newFunc : U → T * option E) (params : gmap string U).

Lemma FromParamsError_fails newFunc params :
  (∃ k u, params !! k = Some u ∧ (newFunc u).2 ≠ None) →
  ∃ e, NewGiuProviderFromParamsError (@range) newFunc params
         = (None, Some e).
Proof.
  intros (k & u & Hk & Hbad). unfold NewGiuProviderFromParamsError.
  destruct (fill_itemMap_fails newFunc (range params) ∅) as [e ->];
    [|by exists e].
  apply Exists_exists. exists (k, u). split; [|done].
  by apply elem_of_range.
Qed.

Lemma FromParamsError_succeeds newFunc params :
  (∀ k u, params !! k = Some u → (newFunc u).2 = None) →
  ∃ g, NewGiuProviderFromParamsError (@range) newFunc params
         = (Some g, None) ∧
       container g = (λ u, (newFunc u).1) <$> params.
Proof.
  intros Hok. unfold NewGiuProviderFromParamsError.
  rewrite fill_itemMap_ok.
  - eexists. split; [done|]. rewrite NewGiuProvider_container.
    rewrite (foldl_insert_list_to_map (λ u, (newFunc u).1))
      by apply range_NoDup.
    by rewrite range_list_to_map, (right_id_L ∅ (∪)).
  - apply Forall_forall. intros [k u] Hin. apply (Hok k).
    by apply elem_of_range.
Qed.

Lemma FromParamsError_cause newFunc params r e :
  NewGiuProviderFromParamsError (@range) newFunc params = (r, Some e) →
  r = None ∧
  ∃ pre k u post, range params = pre ++ (k, u) :: post ∧
    Forall (λ kv, (newFunc kv.2).2 = None) pre ∧
    params !! k = Some u ∧ (newFunc u).2 = Some e.
Proof.
  unfold NewGiuProviderFromParamsError.
  destruct (fill_itemMap newFunc (range params) ∅) as [im|e'] eqn:Hfill;
    [done|].
  intros [= <- ->]. split; [done|].
  apply fill_itemMap_inr in Hfill as (pre & k & u & post & Heq & Hpre & Hu).
  exists pre, k, u, post. repeat split; try done.
  apply elem_of_range. rewrite Heq. apply elem_of_app. right. by left.
Qed.

Lemma range_singleton {A} k (x : A) :
  range ({[k := x]} : gmap string A) = [(k, x)].
Proof.
  apply Permutation_singleton_r.
  by rewrite range_perm, map_to_list_singleton.
Qed.

Lemma FromParamsError_singleton newFunc k u e :
  (newFunc u).2 = Some e →
  NewGiuProviderFromParamsError (@range) newFunc {[k := u]} = (None, Some e).
Proof.
  intros Hu. unfold NewGiuProviderFromParamsError.
  rewrite range_singleton. simpl.
  destruct (newFunc u) as [item err]. simpl in Hu. by subst err.
Qed.

Context {Logger : Type}.

(** C5. Batch construction with a fallible factory is all or nothing: as
    soon as the factory fails for the parameter of some key, the result
    is the nil provider and an error; when it fails for none, the result
    is a provider, no error, and the container has exactly the keys of
    the mapping, each with what the factory built for it.  The same for
    the variant that hands a logger to the factory. *)
Theorem construction_fail_fast newFunc
    (newFuncL : U → Logger → T * option E) (logger : Logger) params :
  ((∃ k u, params !! k = Some u ∧ (newFunc u).2 ≠ None) →
     ∃ e, NewGiuProviderFromParamsError (@range) newFunc params
            = (None, Some e)) ∧
  ((∀ k u, params !! k = Some u → (newFunc u).2 = None) →
     ∃ g, NewGiuProviderFromParamsError (@range) newFunc params
            = (Some g, None) ∧
          container g = (λ u, (newFunc u).1) <$> params ∧
          dom (container g) = dom params) ∧
  ((∃ k u, params !! k = Some u ∧ (newFuncL u logger).2 ≠ None) →
     ∃ e, NewGiuProviderWithLoggerFromParamsError (@range) newFuncL
            params logger = (None, Some e)) ∧
  ((∀ k u, params !! k = Some u → (newFuncL u logger).2 = None) →
     ∃ g, NewGiuProviderWithLoggerFromParamsError (@range) newFuncL
            params logger = (Some g, None) ∧
          container g = (λ u, (newFuncL u logger).1) <$> params ∧
          dom (container g) = dom params).
Proof.
  split; [apply FromParamsError_fails|]. split.
  { intros Hok. destruct (FromParamsError_succeeds _ _ Hok) as (g & ? & Hc).
    exists g. by rewrite Hc, dom_fmap_L. }
  split; [apply (FromParamsError_fails (λ u, newFuncL u logger))|].
  intros Hok.
  destruct (FromParamsError_succeeds (λ u, newFuncL u logger) _ Hok)
    as (g & ? & Hc).
  exists g. by rewrite Hc, dom_fmap_L.
Qed.

End ConstructionFacts.

(** * Properties of the typed providers *)

Section TeardownFacts.
Context {A E : Type}.
Implicit Types (close : A → option E) (vs : list A).

Lemma close_in_order_ok close vs :
  Forall (λ x, close x = None) vs → close_in_order close vs = (vs, None).
Proof.
  induction 1 as [|v vs Hv _ IH]; [done|]. simpl. by rewrite Hv, IH.
Qed.

Lemma close_in_order_stops close pre v post e :
  Forall (λ x, close x = None) pre → close v = Some e →
  close_in_order close (pre ++ v :: post) = (pre ++ [v], Some e).
Proof.
  intros Hpre Hv. induction Hpre as [|x pre Hx _ IH]; simpl.
  - by rewrite Hv.
  - by rewrite Hx, IH.
Qed.

Lemma close_in_order_fail_fast close vs :
  fail_fast close vs (close_in_order close vs).
Proof.
  split.
  - intros pre v post e -> Hpre Hv. by apply close_in_order_stops.
  - apply close_in_order_ok.
Qed.
End TeardownFacts.

Section ShutdownFacts.
Variable range : ∀ A : Type, gmap string A → list (string * A).
Arguments range {A} _.
Hypothesis range_perm :
  ∀ (A : Type) (m : gmap string A), range m ≡ₚ map_to_list m.

Context {E GormDB SqlDB ZapLogger RedisClient : Type}.
Variable DB : GormDB → SqlDB * option E.
Variable sql_Close : SqlDB → option E.
Variable Sync : ZapLogger → option E.
Variable Close : RedisClient → option E.

Lemma zap_loop_close_in_order (kvs : list (string * ZapLogger)) :
  zapProvider_Shutdown_loop Sync kvs = close_in_order Sync kvs.*2.
Proof.
  induction kvs as [|[k v] kvs IH]; [done|]. simpl.
  destruct (Sync v); [done|]. by rewrite IH.
Qed.

Lemma redis_loop_close_in_order (kvs : list (string * RedisClient)) :
  redisProvider_Shutdown_loop Close kvs = close_in_order Close kvs.*2.
Proof.
  induction kvs as [|[k v] kvs IH]; [done|]. simpl.
  destruct (Close v); [done|]. by rewrite IH.
Qed.

Lemma gorm_loop_close_in_order (kvs : list (string * GormDB)) :
  gormProvider_Shutdown_loop DB sql_Close kvs
    = close_in_order (λ v, sql_Close (DB v).1)
        (filter (λ v, (DB v).2 = None) kvs.*2).
Proof.
  induction kvs as [|[k v] kvs IH]; [done|]. simpl.
  destruct (DB v) as [db [e|]] eqn:Hv.
  - rewrite filter_cons_False; [done|]. by rewrite Hv.
  - rewrite filter_cons_True by by rewrite Hv. simpl. rewrite Hv. simpl.
    destruct (sql_Close db); [done|]. by rewrite IH.
Qed.

(** C7, as amended. [Shutdown] of the zap and of the redis provider
    visits the held instances, each once, in the order of the range: it
    returns the first error of [Sync] (of [Close]) with the instances
    after it left alone, or nil after having closed them all.  [Shutdown]
    of the gorm provider does the same over the instances whose [DB()]
    gives a handle; an instance whose [DB()] fails is passed over, it is
    not closed and its error is not returned. *)
Theorem Shutdown_fail_fast (zp : zapProvider ZapLogger)
    (rp : redisProvider RedisClient) (gp : gormProvider GormDB) :
  let zs := (range (container (zap_GiuProvider zp))).*2 in
  let rs := (range (container (redis_GiuProvider rp))).*2 in
  let gs := (range (container (gorm_GiuProvider gp))).*2 in
  (zs ≡ₚ (map_to_list (container (zap_GiuProvider zp))).*2 ∧
   fail_fast Sync zs (zapProvider_Shutdown (@range) Sync zp)) ∧
  (rs ≡ₚ (map_to_list (container (redis_GiuProvider rp))).*2 ∧
   fail_fast Close rs (redisProvider_Shutdown (@range) Close rp)) ∧
  (gs ≡ₚ (map_to_list (container (gorm_GiuProvider gp))).*2 ∧
   fail_fast (λ v, sql_Close (DB v).1)
     (filter (λ v, (DB v).2 = None) gs)
     (gormProvider_Shutdown (@range) DB sql_Close gp)).
Proof.
  intros zs rs gs. split; [|split]; (split; [by apply fmap_Permutation|]).
  - unfold zapProvider_Shutdown. rewrite zap_loop_close_in_order.
    apply close_in_order_fail_fast.
  - unfold redisProvider_Shutdown. rewrite redis_loop_close_in_order.
    apply close_in_order_fail_fast.
  - unfold gormProvider_Shutdown. rewrite gorm_loop_close_in_order.
    apply close_in_order_fail_fast.
Qed.
End ShutdownFacts.

(** * The theorems at concrete registries *)

Lemma range_map_to_list_perm (A : Type) (m : gmap string A) :
  range_map_to_list A m ≡ₚ map_to_list m.
Proof. done. Qed.

Lemma I1_kept_witness :
  I1 (run [CallAdd "a" 1 []; CallAdd "b" 2 []; CallSetDefault "b";
           CallAdd "a" 3 []; CallAdd "b" 4 [true]]
          (newEmpty : GiuProvider nat)).
Proof.
  apply I1_kept; [apply newEmpty_I1|].
  simpl. repeat split; try (intros [Hf Hl]; vm_compute in Hf, Hl; discriminate).
  tauto.
Defined.

(** C1 fails as stated: after [Add("a", 1)] and [Add("a", 3)] the container
    is not empty, holds 3 only, and the default is 1. *)
Lemma I1_broken_by_overwrite :
  ¬ I1 (run [CallAdd "a" 1 []; CallAdd "a" 3 []] (newEmpty : GiuProvider nat)).
Proof.
  set (p := run _ _).
  assert (Hd : Default p = 1) by (vm_compute; reflexivity).
  assert (Hc : container p = {["a" := 3]}) by (vm_compute; reflexivity).
  intros HI. destruct HI as [k Hk].
  - rewrite Hc. apply insert_non_empty.
  - rewrite Hd, Hc in Hk. apply lookup_singleton_Some in Hk as [_ Hk]. done.
Qed.

Lemma Add_default_rule_witness :
  Default (Add "a" 1 [] (newEmpty : GiuProvider nat)) = 1 ∧
  Default (Add "b" 2 [true] (Add "a" 1 [] newEmpty)) = 2 ∧
  Default (Add "b" 2 [false] (Add "a" 1 [] newEmpty)) = 1.
Proof.
  split; [|split].
  - apply (proj1 (Add_default_rule "a" 1 [] newEmpty)). by right.
  - apply (proj1 (Add_default_rule "b" 2 [true] (Add "a" 1 [] newEmpty))).
    by left.
  - rewrite (proj1 (proj2 (Add_default_rule "b" 2 [false]
                             (Add "a" 1 [] newEmpty)))).
    + reflexivity.
    + intros [Hf|Hem]; [discriminate|]. by apply Add_nonempty in Hem.
Defined.

(** C2 fails as stated in one case: the registry holds 1 under a, with 1
    as default; [Add("b", 1)] has no true flag and finds the container
    non-empty, and [Default()] returns the added value 1 all the same. *)
Lemma Add_default_already_val :
  let p : GiuProvider nat := Add "a" 1 [] newEmpty in
  Default (Add "b" 1 [] p) = 1 ∧
  ¬ (isDefault_set [] = true ∨ container p = ∅).
Proof.
  intros p. split; [reflexivity|].
  intros [Hf|Hem]; [discriminate|]. by apply Add_nonempty in Hem.
Qed.

Lemma SetDefault_contract_witness :
  let p : GiuProvider nat := Add "b" 2 [] (Add "a" 1 [] newEmpty) in
  SetDefault "b" p = (mkGiuProvider 2 (container p), true) ∧
  SetDefault "missing" p = (p, false).
Proof.
  intros p. split.
  - apply (proj1 (proj2 (SetDefault_contract "b" p))).
    vm_compute. reflexivity.
  - apply (proj2 (proj2 (SetDefault_contract "missing" p))).
    vm_compute. reflexivity.
Defined.

Lemma Add_overwrite_witness :
  let p1 : GiuProvider nat := Add "a" 1 [] newEmpty in
  let p2 := Add "a" 2 [false] p1 in
  Get "a" p2 = (2, true) ∧ Default p2 = Default p1 ∧
  (Default p1 = 1 → Default p2 = 1).
Proof. apply (Add_overwrite "a" 1 2 [] [false] newEmpty). reflexivity. Defined.

Lemma Default_is_first_insert_witness :
  Default (run [CallAdd "a" 1 [true]; CallAdd "b" 2 []; CallAdd "c" 3 [false]]
               (newEmpty : GiuProvider nat)) = 1.
Proof.
  apply (proj1 (Default_is_first_insert range_map_to_list "a" 1 [true]
                  [CallAdd "b" 2 []; CallAdd "c" 3 [false]] ∅ [])).
  repeat constructor.
Defined.

(** C4 fails as stated: after [Add("a", 1)] and [Add("b", 2)] the default
    is 1, not the value inserted last; and the registry seeded from a map
    that is visited in the order c, a, b has the value of c as default, not
    that of b. *)
Lemma Default_not_last_insert :
  let kvs := [("a", 1); ("b", 2)] in
  let m : gmap string nat := {["a" := 1; "b" := 2; "c" := 3]} in
  (NoDup kvs.*1 ∧ last kvs = Some ("b", 2) ∧
   Default (run (adds kvs) newEmpty) ≠ 2) ∧
  (last (range_map_to_list nat m) = Some ("b", 2) ∧
   Default (NewGiuProvider range_map_to_list [m]) ≠ 2).
Proof.
  intros kvs m. split; [split; [|split]|split].
  - apply (bool_decide_unpack _). vm_compute. reflexivity.
  - reflexivity.
  - vm_compute. discriminate.
  - vm_compute. reflexivity.
  - vm_compute. discriminate.
Qed.

Lemma variadic_first_map_only_witness :
  container (NewGiuProvider range_map_to_list
               [({["a" := 1]} : gmap string nat); {["b" := 2]}])
    = {["a" := 1]}.
Proof.
  exact (proj1 (proj2 (proj2
    (variadic_first_map_only range_map_to_list range_map_to_list_perm
       ({["a" := 1]} : gmap string nat) [{["b" := 2]}] [])))).
Defined.

Lemma construction_fail_fast_witness :
  let params : gmap string nat := {["a" := 1; "b" := 0; "c" := 3]} in
  let newFunc := λ u : nat,
    if decide (u = 0) then (0, Some "boom") else (u, @None string) in
  let newFuncL := λ (u : nat) (_ : unit), (S u, @None string) in
  (∃ e, NewGiuProviderFromParamsError range_map_to_list newFunc params
          = (None, Some e)) ∧
  (∃ g, NewGiuProviderWithLoggerFromParamsError range_map_to_list newFuncL
          params () = (Some g, None) ∧
        container g = (λ u, (newFuncL u ()).1) <$> params ∧
        dom (container g) = dom params).
Proof.
  intros params newFunc newFuncL.
  destruct (construction_fail_fast range_map_to_list range_map_to_list_perm
              newFunc newFuncL () params) as (Hfail & _ & _ & Hok).
  split.
  - apply Hfail. exists "b", 0. split; [vm_compute; reflexivity|discriminate].
  - apply Hok. reflexivity.
Defined.



Lemma Shutdown_fail_fast_witness :
  let Sync := λ v : nat, if decide (v = 1) then Some "sync failed" else None in
  let zp := NewZapProvider range_map_to_list
              [({["a" := 1; "b" := 2; "c" := 3]} : gmap string nat)] in
  zapProvider_Shutdown range_map_to_list Sync zp = ([3; 1], Some "sync failed").
Proof.
  intros Sync zp.
  destruct (Shutdown_fail_fast range_map_to_list range_map_to_list_perm
              (λ v : nat, (v, @None string)) (λ _ : nat, None) Sync
              (λ _ : nat, None) zp (mk_redisProvider newEmpty)
              (mk_gormProvider newEmpty)) as ((_ & Hzap & _) & _ & _).
  apply (Hzap [3] 1 [2] "sync failed").
  - vm_compute. reflexivity.
  - repeat constructor.
  - reflexivity.
Defined.

(** C7 fails as stated for the gorm provider: with a held connection whose
    [DB()] returns an error, no close fails and [Shutdown] returns nil, yet
    the connection was not closed. *)
Lemma gorm_Shutdown_passes_over :
  let DB := λ v : nat, (v, Some "invalid db") in
  let sql_Close := λ _ : nat, @None string in
  let gp := NewGormProvider range_map_to_list
              [({["main" := 7]} : gmap string nat)] in
  gormProvider_Shutdown range_map_to_list DB sql_Close gp = ([], None) ∧
  (range_map_to_list nat (container (gorm_GiuProvider gp))).*2 = [7] ∧
  ¬ fail_fast (λ v, sql_Close (DB v).1)
      (range_map_to_list nat (container (gorm_GiuProvider gp))).*2
      (gormProvider_Shutdown range_map_to_list DB sql_Close gp).
Proof.
  intros DB sql_Close gp.
  assert (Hr : gormProvider_Shutdown range_map_to_list DB sql_Close gp
               = ([], None)) by (vm_compute; reflexivity).
  assert (Hv : (range_map_to_list nat (container (gorm_GiuProvider gp))).*2
               = [7]) by (vm_compute; reflexivity).
  split; [done|]. split; [done|].
  rewrite Hr, Hv. intros [_ Hall].
  discriminate Hall. repeat constructor.
Qed.
